(* Shallow embedding of src/src/main.rs (chat-rs): the client registry
   `Clients = Arc<Mutex<HashMap<String, Client>>>`, the HTTP handlers that
   read and write it, the websocket lifecycle of `client_connected` and the
   disconnect timers it spawns.

   Modelling choices:
   - the HashMap is an association list in its iteration order; `get`
     and `contains_key` look up by key, `iter().find` returns the first
     match in that order, `insert` replaces the value of a present key in
     place and otherwise adds the pair at the end, `retain` is a filter;
   - `String::to_lowercase` is a parameter of the development (Section
     variable); concrete runs use its ASCII restriction;
   - `uuid::Uuid::new_v4()` is an input: the token handed to a registration;
   - mpsc senders and tokio JoinHandles are identified by natural numbers;
     the running timer tasks are an explicit list, `abort()` removes a task
     from it, dropping or overwriting a JoinHandle does not;
   - time is counted in whole seconds; a timer spawned at time t sleeps
     10 seconds and runs its `retain` when the clock reaches t + 10. *)

From Stdlib Require Import String Ascii List Bool Arith Lia.
Import ListNotations.
Open Scope string_scope.
Open Scope list_scope.

(** The [Client] struct. *)
Record Client := mkClient {
  name : string;
  token : string;
  disconnect_timer : option nat;   (* Option<JoinHandle<()>> *)
  tx : option nat                  (* Option<UnboundedSender<Message>> *)
}.

(** The [Message] struct pushed to a websocket. *)
Record Message := mkMessage { from : string; body : string }.

(** HashMap<String, Client> in iteration order. *)
Definition Clients := list (string * Client).

(** A spawned disconnect timer task: its handle, the token it evicts and
    the time at which its 10 second sleep ends. *)
Record TimerTask := mkTimer { tid : nat; ttoken : string; deadline : nat }.

(** Runtime state: the shared map, the running timer tasks, the clock and
    the next fresh handle identity. *)
Record State := mkState {
  clients : Clients;
  tasks : list TimerTask;
  now : nat;
  next_id : nat
}.

(** The fixed sleep of the disconnect timer, [Duration::from_secs(10)]. *)
Definition GRACE_SECS : nat := 10.

(** ** HashMap operations *)

Fixpoint contains_key (k : string) (m : Clients) : bool :=
  match m with
  | [] => false
  | (k', _) :: r => String.eqb k' k || contains_key k r
  end.

Fixpoint get (k : string) (m : Clients) : option Client :=
  match m with
  | [] => None
  | (k', c) :: r => if String.eqb k' k then Some c else get k r
  end.

Fixpoint insert (k : string) (v : Client) (m : Clients) : Clients :=
  match m with
  | [] => [(k, v)]
  | (k', c) :: r => if String.eqb k' k then (k', v) :: r else (k', c) :: insert k v r
  end.

(** [clients.iter().find(|(_, client)| client.token == token)] *)
Fixpoint find_by_token (t : string) (m : Clients) : option Client :=
  match m with
  | [] => None
  | (_, c) :: r => if String.eqb (token c) t then Some c else find_by_token t r
  end.

(** [clients.retain(|_, client| client.token != token)] *)
Definition retain_not_token (t : string) (m : Clients) : Clients :=
  filter (fun kc => negb (String.eqb (token (snd kc)) t)) m.

(** ** Serialization (serde derive, fields in declaration order) *)

#[local] Set Warnings "-register-all".
Inductive json :=
  | JNull
  | JNum (n : nat)
  | JString (s : string)
  | JArray (xs : list json)
  | JObject (fs : list (string * json)).

Definition json_opt (o : option nat) : json :=
  match o with Some n => JNum n | None => JNull end.

(** The fields of [Client] with their [#[serde(skip)]] flag and value. *)
Definition client_fields (c : Client) : list (string * bool * json) :=
  [("name", false, JString (name c));
   ("token", true, JString (token c));
   ("disconnect_timer", true, json_opt (disconnect_timer c));
   ("tx", true, json_opt (tx c))].

(** [#[derive(Serialize)]]: an object of the fields not marked skip. *)
Definition serialize_struct (fs : list (string * bool * json)) : json :=
  JObject (map (fun '(n, _, v) => (n, v)) (filter (fun '(_, skip, _) => negb skip) fs)).

Definition client_json (c : Client) : json := serialize_struct (client_fields c).

Section Handlers.

(** [String::to_lowercase]. *)
Variable to_lowercase : string -> string.

(** ** handle_registration *)

Inductive RegResult := Conflict | Token (t : string).

Definition new_client (n t : string) : Client :=
  {| name := n; token := t; disconnect_timer := None; tx := None |}.

(** Sequential run of [handle_registration]: a first critical section
    checks [contains_key], a second one inserts. *)
Definition handle_registration (n t : string) (m : Clients) : Clients * RegResult :=
  if contains_key (to_lowercase n) m then (m, Conflict)
  else (insert (to_lowercase n) (new_client n t) m, Token t).

(** The two lock acquisitions of [handle_registration] as separate steps,
    so that two requests can interleave between them. *)
Inductive RegPc := RegCheck | RegInsert | RegDone (r : RegResult).

Record RegThread := mkReg { rname : string; rtok : string; rpc : RegPc }.

Definition reg_step (m : Clients) (th : RegThread) : Clients * RegThread :=
  match rpc th with
  | RegCheck =>
      if contains_key (to_lowercase (rname th)) m
      then (m, mkReg (rname th) (rtok th) (RegDone Conflict))
      else (m, mkReg (rname th) (rtok th) RegInsert)
  | RegInsert =>
      (insert (to_lowercase (rname th)) (new_client (rname th) (rtok th)) m,
       mkReg (rname th) (rtok th) (RegDone (Token (rtok th))))
  | RegDone _ => (m, th)
  end.

(** Two registration requests scheduled by a list of choices
    ([true]: the first request runs its next critical section). *)
Fixpoint run_two (sched : list bool) (m : Clients) (a b : RegThread)
  : Clients * RegThread * RegThread :=
  match sched with
  | [] => (m, a, b)
  | true :: s => let (m', a') := reg_step m a in run_two s m' a' b
  | false :: s => let (m', b') := reg_step m b in run_two s m' a b'
  end.

(** ** handle_send_message *)

Inductive RouteResult :=
  | Delivered (chan : nat) (msg : Message)  (* [send] on the recipient's tx *)
  | Unauthorized                           (* [warp::reject()] on the sender lookup *)
  | RecipientNotFound                      (* [reject::not_found] on [get] *)
  | RecipientOffline.                      (* [reject::not_found] on [tx] *)

Definition handle_send_message (tok to bdy : string) (m : Clients) : RouteResult :=
  match get (to_lowercase to) m with
  | None => RecipientNotFound
  | Some client =>
      match find_by_token tok m with
      | None => Unauthorized
      | Some sender_client =>
          match tx client with
          | None => RecipientOffline
          | Some ch => Delivered ch (mkMessage (name sender_client) bdy)
          end
      end
  end.

End Handlers.

(** ** handle_status and handle_list_clients *)

Definition handle_status (tok : string) (m : Clients) : option json :=
  match find_by_token tok m with
  | Some c => Some (client_json c)
  | None => None
  end.

Definition handle_list_clients (m : Clients) : json :=
  JArray (map (fun kc => client_json (snd kc)) m).

(** ** client_connected *)

(** Lines 97-108, under the lock: the first client with the token gets its
    pending timer taken (returned, to be aborted) and [tx] set. *)
Fixpoint attach_clients (t : string) (ch : nat) (m : Clients) : Clients * option nat :=
  match m with
  | [] => ([], None)
  | (k, c) :: r =>
      if String.eqb (token c) t
      then ((k, {| name := name c; token := token c; disconnect_timer := None;
                   tx := Some ch |}) :: r, disconnect_timer c)
      else let (r', taken) := attach_clients t ch r in ((k, c) :: r', taken)
  end.

(** [JoinHandle::abort]: the task stops running (no-op if already done). *)
Definition abort (h : nat) (ts : list TimerTask) : list TimerTask :=
  filter (fun tk => negb (Nat.eqb (tid tk) h)) ts.

Definition attach (t : string) (ch : nat) (st : State) : State :=
  let (m, taken) := attach_clients t ch (clients st) in
  {| clients := m;
     tasks := match taken with Some h => abort h (tasks st) | None => tasks st end;
     now := now st; next_id := next_id st |}.

(** Lines 125-141, under the lock: the first client with the token gets
    [disconnect_timer = Some(handle)] of a freshly spawned timer; [tx] is
    left as it is and the previous handle is overwritten. *)
Fixpoint detach_clients (t : string) (h : nat) (m : Clients) : Clients * bool :=
  match m with
  | [] => ([], false)
  | (k, c) :: r =>
      if String.eqb (token c) t
      then ((k, {| name := name c; token := token c; disconnect_timer := Some h;
                   tx := tx c |}) :: r, true)
      else let (r', found) := detach_clients t h r in ((k, c) :: r', found)
  end.

Definition detach (t : string) (st : State) : State :=
  let h := next_id st in
  let (m, found) := detach_clients t h (clients st) in
  if found
  then {| clients := m;
          tasks := tasks st ++ [mkTimer h t (now st + GRACE_SECS)];
          now := now st; next_id := S h |}
  else st.

(** Body of the timer task after its sleep: [retain] under the lock. *)
Definition fire (tk : TimerTask) (st : State) : State :=
  {| clients := retain_not_token (ttoken tk) (clients st);
     tasks := abort (tid tk) (tasks st);
     now := now st; next_id := next_id st |}.

Definition due (st : State) : list TimerTask :=
  filter (fun tk => Nat.leb (deadline tk) (now st)) (tasks st).

(** One second passes; every timer whose sleep has ended runs. *)
Definition tick (st : State) : State :=
  let st1 := {| clients := clients st; tasks := tasks st;
                now := S (now st); next_id := next_id st |} in
  fold_left (fun s tk => fire tk s) (due st1) st1.

Section Events.

Variable to_lowercase : string -> string.

(** Requests and connection events, each one run to completion. *)
Inductive Event :=
  | ERegister (n t : string)      (* POST /register, [t] the fresh uuid *)
  | EAttach (t : string) (ch : nat) (* websocket opened with its channel *)
  | EDetach (t : string)          (* websocket closed *)
  | ETick.                        (* one second passes *)

Definition step (st : State) (e : Event) : State :=
  match e with
  | ERegister n t =>
      {| clients := fst (handle_registration to_lowercase n t (clients st));
         tasks := tasks st; now := now st; next_id := next_id st |}
  | EAttach t ch => attach t ch st
  | EDetach t => detach t st
  | ETick => tick st
  end.

Definition exec (st : State) (es : list Event) : State := fold_left step es st.

End Events.

Definition init : State := {| clients := []; tasks := []; now := 0; next_id := 0 |}.

(** ** ASCII restriction of [to_lowercase], for concrete runs *)

Definition ascii_lower (a : ascii) : ascii :=
  let n := nat_of_ascii a in
  if Nat.leb 65 n && Nat.leb n 90 then ascii_of_nat (n + 32) else a.

Fixpoint lowercase (s : string) : string :=
  match s with
  | EmptyString => EmptyString
  | String a r => String (ascii_lower a) (lowercase r)
  end.

Example lowercase_Alice : lowercase "Alice" = "alice".
Proof. reflexivity. Qed.

(** ** ws_handler, the reply of handle_registration, outbound frames *)

(** [ws_handler]: the upgrade is accepted iff some client has the token. *)
Inductive WsReply := Upgrade | Reject.

Definition ws_handler (t : string) (m : Clients) : WsReply :=
  if existsb (fun kc => String.eqb (token (snd kc)) t) m then Upgrade else Reject.

(** [RegistrationResponse] with [skip_serializing_if = "Option::is_none"]
    on both fields. *)
Definition registration_response_json (tok err : option string) : json :=
  JObject ((match tok with Some t => [("token", JString t)] | None => [] end) ++
           (match err with Some e => [("error", JString e)] | None => [] end)).

(** Status code and body of the reply of [handle_registration]. *)
Definition registration_reply (r : RegResult) : nat * json :=
  match r with
  | Conflict => (406, registration_response_json None (Some "The name is already taken"))
  | Token t => (200, registration_response_json (Some t) None)
  end.

(** [serde_json::to_string(&message)] in the outbound pump. *)
Definition message_json (msg : Message) : json :=
  JObject [("from", JString (from msg)); ("body", JString (body msg))].

(** Every running timer ends its sleep within the next 10 seconds and no
    timer past its deadline is left pending. *)
Definition timers_bounded (st : State) : Prop :=
  forall tk, In tk (tasks st) -> now st < deadline tk <= now st + GRACE_SECS.

(** * Invariant: every key is the lowercased display name of its client *)

Section Normalized.

Variable to_lowercase : string -> string.

Definition keys_normalized (m : Clients) : Prop :=
  Forall (fun kc => fst kc = to_lowercase (name (snd kc))) m.

Lemma contains_key_In (k : string) (m : Clients) :
  contains_key k m = true <-> exists c, In (k, c) m.
Proof.
  induction m as [| [k' c'] r IH]; simpl.
  - split; [discriminate | intros [c []]].
  - rewrite orb_true_iff, IH, String.eqb_eq. split.
    + intros [-> | [c Hc]]; eauto.
    + intros [c [E | Hc]]; [inversion E; auto | eauto].
Qed.

Lemma insert_absent (k : string) (v : Client) (m : Clients) :
  contains_key k m = false -> insert k v m = m ++ [(k, v)].
Proof.
  induction m as [| [k' c'] r IH]; simpl; auto.
  intros H. apply orb_false_iff in H as [H1 H2].
  rewrite H1, IH; auto.
Qed.

Lemma insert_normalized (n t : string) (m : Clients) :
  keys_normalized m ->
  keys_normalized (insert (to_lowercase n) (new_client n t) m).
Proof.
  unfold keys_normalized. induction 1 as [| [k c] r Hk Hr IH]; simpl.
  - repeat constructor.
  - destruct (String.eqb k (to_lowercase n)) eqn:E.
    + apply String.eqb_eq in E. constructor; simpl; auto.
    + constructor; auto.
Qed.

Lemma attach_clients_normalized (t : string) (ch : nat) (m : Clients) :
  keys_normalized m -> keys_normalized (fst (attach_clients t ch m)).
Proof.
  unfold keys_normalized. induction 1 as [| [k c] r Hk Hr IH]; simpl; auto.
  destruct (String.eqb (token c) t).
  - constructor; auto.
  - destruct (attach_clients t ch r) as [r' tk]. constructor; auto.
Qed.

Lemma detach_clients_normalized (t : string) (h : nat) (m : Clients) :
  keys_normalized m -> keys_normalized (fst (detach_clients t h m)).
Proof.
  unfold keys_normalized. induction 1 as [| [k c] r Hk Hr IH]; simpl; auto.
  destruct (String.eqb (token c) t).
  - constructor; auto.
  - destruct (detach_clients t h r) as [r' f]. constructor; auto.
Qed.

Lemma retain_normalized (t : string) (m : Clients) :
  keys_normalized m -> keys_normalized (retain_not_token t m).
Proof.
  unfold keys_normalized, retain_not_token. intros H.
  apply Forall_forall. intros x Hx. apply filter_In in Hx as [Hx _].
  rewrite Forall_forall in H. auto.
Qed.

Lemma fire_fold_normalized (l : list TimerTask) (st : State) :
  keys_normalized (clients st) ->
  keys_normalized (clients (fold_left (fun s tk => fire tk s) l st)).
Proof.
  revert st. induction l as [| tk l IH]; simpl; auto.
  intros st H. apply IH. simpl. apply retain_normalized, H.
Qed.

Lemma step_normalized (st : State) (e : Event) :
  keys_normalized (clients st) -> keys_normalized (clients (step to_lowercase st e)).
Proof.
  intros H. destruct e as [n t | t ch | t |]; simpl.
  - unfold handle_registration. destruct (contains_key _ _); simpl; auto.
    apply insert_normalized, H.
  - unfold attach. pose proof (attach_clients_normalized t ch _ H) as H'.
    destruct (attach_clients t ch (clients st)); exact H'.
  - unfold detach. pose proof (detach_clients_normalized t (next_id st) _ H) as H'.
    destruct (detach_clients t (next_id st) (clients st)) as [m []]; simpl; auto.
  - unfold tick. apply fire_fold_normalized. exact H.
Qed.

Lemma exec_normalized (es : list Event) (st : State) :
  keys_normalized (clients st) -> keys_normalized (clients (exec to_lowercase st es)).
Proof.
  unfold exec. revert st. induction es as [| e es IH]; simpl; auto.
  intros st H. apply IH, step_normalized, H.
Qed.

Lemma reachable_normalized (es : list Event) :
  keys_normalized (clients (exec to_lowercase init es)).
Proof. apply exec_normalized. constructor. Qed.

Lemma find_by_token_app_new (t : string) (m : Clients) (k : string) (c : Client) :
  (forall k' c', In (k', c') m -> token c' <> t) -> token c = t ->
  find_by_token t (m ++ [(k, c)]) = Some c.
Proof.
  intros Hm Hc. induction m as [| [k' c'] r IH]; simpl.
  - rewrite Hc, String.eqb_refl. reflexivity.
  - destruct (String.eqb (token c') t) eqn:E.
    + apply String.eqb_eq in E. exfalso. apply (Hm k' c'); simpl; auto.
    + apply IH. intros k'' c'' Hin. apply (Hm k''). simpl; auto.
Qed.

End Normalized.

(** * Theorems *)

(** ** Registration *)

Lemma conflict_iff_contains (lower : string -> string) (n t : string) (m : Clients) :
  snd (handle_registration lower n t m) = Conflict <-> contains_key (lower n) m = true.
Proof.
  unfold handle_registration. destruct (contains_key (lower n) m); simpl; split;
    congruence.
Qed.

Lemma contains_normalized (lower : string -> string) (n : string) (m : Clients) :
  keys_normalized lower m ->
  (contains_key (lower n) m = true <->
   exists k c, In (k, c) m /\ lower (name c) = lower n).
Proof.
  intros H. rewrite contains_key_In. unfold keys_normalized in H.
  rewrite Forall_forall in H. split.
  - intros [c Hc]. exists (lower n), c. split; auto.
    specialize (H _ Hc). simpl in H. auto.
  - intros [k [c [Hin Hn]]]. exists c. specialize (H _ Hin). simpl in H.
    rewrite <- Hn, <- H. exact Hin.
Qed.

(** C3. On every reachable registry, [register n] answers Conflict exactly
    when an entry's lowercased name equals [lowercase n]; otherwise the new
    Client, with the casing of [n] as its name, is stored under
    [lowercase n] and its fresh token is returned and resolves to it.
    With ASCII lowercasing, "Alice" then "alice" conflicts and "Alice"
    then "Bob" both succeed. *)
Theorem register_conflict_iff_normalized :
  (forall (lower : string -> string) (es : list Event) (n t : string),
     let m := clients (exec lower init es) in
     (snd (handle_registration lower n t m) = Conflict <->
        exists k c, In (k, c) m /\ lower (name c) = lower n) /\
     ((forall k c, In (k, c) m -> lower (name c) <> lower n) ->
        handle_registration lower n t m = (m ++ [(lower n, new_client n t)], Token t) /\
        ((forall k c, In (k, c) m -> token c <> t) ->
           find_by_token t (fst (handle_registration lower n t m)) =
             Some (new_client n t)))) /\
  handle_registration lowercase "Alice" "t1" [] =
    ([("alice", new_client "Alice" "t1")], Token "t1") /\
  snd (handle_registration lowercase "alice" "t2"
         (fst (handle_registration lowercase "Alice" "t1" []))) = Conflict /\
  handle_registration lowercase "Bob" "t2"
    (fst (handle_registration lowercase "Alice" "t1" [])) =
    ([("alice", new_client "Alice" "t1"); ("bob", new_client "Bob" "t2")], Token "t2").
Proof.
  split; [| repeat split; reflexivity].
  intros lower es n t m.
  pose proof (reachable_normalized lower es) as Hn. fold m in Hn.
  split.
  - rewrite conflict_iff_contains. apply contains_normalized, Hn.
  - intros Hnone.
    assert (Hf : contains_key (lower n) m = false).
    { destruct (contains_key (lower n) m) eqn:E; auto.
      apply (contains_normalized lower n m Hn) in E as [k [c [Hin Hc]]].
      exfalso. exact (Hnone k c Hin Hc). }
    assert (Hr : handle_registration lower n t m =
                 (m ++ [(lower n, new_client n t)], Token t)).
    { unfold handle_registration. rewrite Hf, insert_absent; auto. }
    split; auto.
    intros Htok. rewrite Hr. simpl. apply find_by_token_app_new; auto.
Qed.

(** Witness for [register_conflict_iff_normalized]: a registry holding
    "Alice", then "Carol" is registered. *)
Lemma register_conflict_iff_normalized_witness :
  let m := clients (exec lowercase init [ERegister "Alice" "t1"]) in
  (forall k c, In (k, c) m -> lowercase (name c) <> lowercase "Carol") /\
  (forall k c, In (k, c) m -> token c <> "t2") /\
  find_by_token "t2" (fst (handle_registration lowercase "Carol" "t2" m)) =
    Some (new_client "Carol" "t2").
Proof.
  intros m.
  assert (H1 : forall k c, In (k, c) m -> lowercase (name c) <> lowercase "Carol").
  { intros k c [E | []]. inversion E. subst. discriminate. }
  assert (H2 : forall k c, In (k, c) m -> token c <> "t2").
  { intros k c [E | []]. inversion E. subst. discriminate. }
  split; [exact H1 | split; [exact H2 |]].
  exact (proj2 (proj2 (proj1 register_conflict_iff_normalized lowercase
    [ERegister "Alice" "t1"] "Carol" "t2") H1) H2).
Defined.

(** C10. A registration answered with Conflict returns no token and
    leaves the map, and the whole runtime state, exactly as it was. *)
Theorem register_conflict_unchanged :
  forall (lower : string -> string) (st : State) (n t : string),
    snd (handle_registration lower n t (clients st)) = Conflict ->
    handle_registration lower n t (clients st) = (clients st, Conflict) /\
    step lower st (ERegister n t) = st.
Proof.
  intros lower [m ts clk nid] n t H. simpl in *.
  unfold handle_registration in *.
  destruct (contains_key (lower n) m); [| discriminate]. split; reflexivity.
Qed.

Lemma register_conflict_unchanged_witness :
  let st := exec lowercase init [ERegister "Alice" "t1"] in
  snd (handle_registration lowercase "ALICE" "t2" (clients st)) = Conflict /\
  step lowercase st (ERegister "ALICE" "t2") = st.
Proof.
  intros st.
  assert (H : snd (handle_registration lowercase "ALICE" "t2" (clients st)) = Conflict)
    by reflexivity.
  split; [exact H | exact (proj2 (register_conflict_unchanged lowercase st "ALICE" "t2" H))].
Defined.

(** ** Serialization *)

Lemma client_json_name_only (c : Client) :
  client_json c = JObject [("name", JString (name c))].
Proof. reflexivity. Qed.

(** C7. The JSON of a client, in /status and /clients alike, is the object
    with the single field "name"; token, timer and channel handles never
    appear, so registries whose clients agree on keys and names give the
    same /clients body, and a /status body only depends on the name of the
    client found. *)
Theorem responses_expose_name_only :
  (forall c : Client, client_json c = JObject [("name", JString (name c))]) /\
  (forall c1 c2 : Client, name c1 = name c2 -> client_json c1 = client_json c2) /\
  (forall (t : string) (m : Clients) (b : json),
     handle_status t m = Some b ->
     exists c, find_by_token t m = Some c /\ b = JObject [("name", JString (name c))]) /\
  (forall m1 m2 : Clients,
     map (fun kc => name (snd kc)) m1 = map (fun kc => name (snd kc)) m2 ->
     handle_list_clients m1 = handle_list_clients m2).
Proof.
  split; [exact client_json_name_only |].
  split; [intros c1 c2 H; rewrite !client_json_name_only, H; reflexivity |].
  split.
  - intros t m b H. unfold handle_status in H.
    destruct (find_by_token t m) as [c |]; [| discriminate].
    inversion H. exists c. split; auto.
  - intros m1. unfold handle_list_clients.
    induction m1 as [| [k1 c1] r1 IH]; intros [| [k2 c2] r2] H; simpl in *;
      try discriminate; auto.
    inversion H as [[Hn Hr]]. apply IH in Hr. inversion Hr.
    rewrite !client_json_name_only, Hn. reflexivity.
Qed.

Lemma responses_expose_name_only_witness :
  let c1 := {| name := "Bob"; token := "tB"; disconnect_timer := Some 4; tx := Some 7 |} in
  let c2 := {| name := "Bob"; token := "zz"; disconnect_timer := None; tx := None |} in
  client_json c1 = client_json c2 /\
  handle_status "tB" [("bob", c1)] = Some (JObject [("name", JString "Bob")]) /\
  handle_list_clients [("bob", c1)] = handle_list_clients [("bob", c2)].
Proof.
  intros c1 c2.
  destruct responses_expose_name_only as [_ [H2 [_ H4]]].
  split; [apply H2; reflexivity |].
  split; [reflexivity |].
  apply H4. reflexivity.
Defined.

(** ** Routing *)

(** C2 (as amended). With a sender token that matches no client, the
    result is Unauthorized when the recipient name resolves and
    RecipientNotFound when it does not: the recipient is looked up first. *)
Theorem route_unknown_sender :
  forall (lower : string -> string) (tok to b : string) (m : Clients),
    find_by_token tok m = None ->
    handle_send_message lower tok to b m =
      match get (lower to) m with
      | Some _ => Unauthorized
      | None => RecipientNotFound
      end.
Proof.
  intros lower tok to b m H. unfold handle_send_message.
  destruct (get (lower to) m); [rewrite H |]; reflexivity.
Qed.

Lemma route_unknown_sender_witness :
  let m := clients (exec lowercase init [ERegister "Bob" "tB"]) in
  find_by_token "nobody" m = None /\
  handle_send_message lowercase "nobody" "BOB" "hi" m = Unauthorized.
Proof.
  intros m.
  assert (H : find_by_token "nobody" m = None) by reflexivity.
  split; [exact H | exact (route_unknown_sender lowercase "nobody" "BOB" "hi" m H)].
Defined.

(** C2 counterexample: on the empty registry an unknown sender naming an
    unknown recipient gets RecipientNotFound, not Unauthorized. *)
Lemma route_unknown_sender_not_unauthorized :
  find_by_token "nobody" [] = None /\
  handle_send_message lowercase "nobody" "bob" "hi" [] = RecipientNotFound /\
  handle_send_message lowercase "nobody" "bob" "hi" [] <> Unauthorized.
Proof. split; [reflexivity | split; [reflexivity | discriminate]]. Qed.

(** ** Lifecycle runs *)

(** Detach never touches [tx]. *)
Lemma detach_clients_keeps_tx (t : string) (h : nat) (m : Clients) (k : string) :
  option_map tx (get k (fst (detach_clients t h m))) = option_map tx (get k m).
Proof.
  induction m as [| [k' c] r IH]; simpl; auto.
  destruct (String.eqb (token c) t); simpl.
  - destruct (String.eqb k' k); reflexivity.
  - destruct (detach_clients t h r) as [r' f] eqn:E. simpl in *.
    destruct (String.eqb k' k); auto.
Qed.

(** C1 (code_bug). Alice and Bob register, Bob connects on channel 1 and
    disconnects: Bob is in his grace period (timer 0 stored and running)
    yet [tx] still holds channel 1, and Alice's message to "bob" is handed
    to it: Delivered rather than RecipientOffline. *)
Theorem grace_recipient_still_delivered :
  let st := exec lowercase init
              [ERegister "Alice" "tA"; ERegister "Bob" "tB"; EAttach "tB" 1; EDetach "tB"] in
  option_map disconnect_timer (get "bob" (clients st)) = Some (Some 0) /\
  tasks st = [mkTimer 0 "tB" 10] /\
  option_map tx (get "bob" (clients st)) = Some (Some 1) /\
  handle_send_message lowercase "tA" "bob" "hi" (clients st) =
    Delivered 1 (mkMessage "Alice" "hi").
Proof. vm_compute. repeat split. Qed.

(** Two websocket connections with Bob's token: the detaches of both runs
    happen with no attach between them. *)
Definition two_sockets : list Event :=
  [ERegister "Bob" "tB"; EAttach "tB" 1; EAttach "tB" 2; EDetach "tB"; EDetach "tB"].

(** C4 (code_bug). The second detach spawns a second timer and overwrites
    the handle of the first without aborting it: two timers for Bob run. *)
Theorem double_detach_two_timers :
  let st := exec lowercase init two_sockets in
  tasks st = [mkTimer 0 "tB" 10; mkTimer 1 "tB" 10] /\
  option_map disconnect_timer (get "bob" (clients st)) = Some (Some 1).
Proof. vm_compute. split; reflexivity. Qed.

(** Two sockets close at times 0 and 1 (timers 0 and 1, handle 0 lost),
    then Bob reconnects on channel 3 at time 2 (timer 1 aborted). *)
Definition reconnect_after_orphan : list Event :=
  [ERegister "Bob" "tB"; EAttach "tB" 1; EAttach "tB" 2; EDetach "tB"; ETick;
   EDetach "tB"; ETick; EAttach "tB" 3].

(** C5 (code_bug). Right after the attach Bob's stored timer is gone and
    [tx] is channel 3, but timer 0, never cancelled, is still running. *)
Theorem attach_leaves_orphan_timer :
  let st := exec lowercase init reconnect_after_orphan in
  get "bob" (clients st) =
    Some {| name := "Bob"; token := "tB"; disconnect_timer := None; tx := Some 3 |} /\
  tasks st = [mkTimer 0 "tB" 10].
Proof. vm_compute. split; reflexivity. Qed.

(** C6 (code_bug). Timer 0 was started at time 0 and superseded; Bob
    reconnected at time 2 and stays connected, yet at time 10 timer 0 fires
    and removes him. *)
Theorem stale_timer_evicts_connected :
  let st := exec lowercase init reconnect_after_orphan in
  let st' := exec lowercase st (repeat ETick 8) in
  option_map tx (get "bob" (clients (exec lowercase st (repeat ETick 7)))) = Some (Some 3) /\
  now st' = 10 /\ clients st' = [] /\ handle_status "tB" (clients st') = None.
Proof. vm_compute. repeat split. Qed.

(** C9 (code_bug). After the reconnect Bob disconnects at time 3 and never
    returns, but the orphaned timer 0 evicts him at time 10, 7 seconds
    after his disconnect. *)
Theorem grace_cut_short :
  let st := exec lowercase init (reconnect_after_orphan ++ [ETick; EDetach "tB"]) in
  let st' := exec lowercase st (repeat ETick 7) in
  now st = 3 /\ now st' = 10 /\
  handle_status "tB" (clients st') = None /\
  handle_send_message lowercase "tB" "bob" "hi" (clients st') = RecipientNotFound.
Proof. vm_compute. repeat split. Qed.

(** With one socket at a time the grace period is the full 10 seconds. *)
Example single_socket_grace :
  let st := exec lowercase init [ERegister "Bob" "tB"; EAttach "tB" 1; EDetach "tB"] in
  handle_status "tB" (clients (exec lowercase st (repeat ETick 9))) =
    Some (JObject [("name", JString "Bob")]) /\
  handle_status "tB" (clients (exec lowercase st (repeat ETick 10))) = None.
Proof. vm_compute. split; reflexivity. Qed.

(** ** Concurrent registrations *)

(** C8 (code_bug). Two requests for "bob" and "Bob" both pass the
    [contains_key] check before either inserts; both receive a token and
    the second insert replaces the first client, whose token t1 no longer
    resolves. *)
Theorem concurrent_register_both_win :
  let '(m, a, b) := run_two lowercase [true; false; true; false] []
                      (mkReg "bob" "t1" RegCheck) (mkReg "Bob" "t2" RegCheck) in
  rpc a = RegDone (Token "t1") /\ rpc b = RegDone (Token "t2") /\
  m = [("bob", new_client "Bob" "t2")] /\
  handle_status "t1" m = None.
Proof. vm_compute. repeat split. Qed.

(** Run alone, the two critical sections are [handle_registration]. *)
Lemma reg_steps_sequential (lower : string -> string) (n t : string) (m : Clients) (b : RegThread) :
  let '(m', a, _) := run_two lower [true; true] m (mkReg n t RegCheck) b in
  handle_registration lower n t m =
    (m', match rpc a with RegDone r => r | _ => Conflict end).
Proof.
  unfold handle_registration. simpl. unfold reg_step. simpl.
  destruct (contains_key (lower n) m); reflexivity.
Qed.

(** * Further properties of the handlers and the lifecycle *)

(** ** Helper lemmas *)

Lemma get_app_absent (k : string) (v : Client) (m : Clients) :
  contains_key k m = false -> get k (m ++ [(k, v)]) = Some v.
Proof.
  induction m as [| [k' c'] r IH]; simpl.
  - rewrite String.eqb_refl. reflexivity.
  - intros H. apply orb_false_iff in H as [H1 H2]. rewrite H1. auto.
Qed.

Lemma get_app_other (k k' : string) (v : Client) (m : Clients) :
  k' <> k -> get k' (m ++ [(k, v)]) = get k' m.
Proof.
  intros Hne. induction m as [| [k0 c0] r IH]; simpl.
  - destruct (String.eqb_spec k k'); [congruence | reflexivity].
  - destruct (String.eqb k0 k'); auto.
Qed.

Lemma find_by_token_app_other (s t k : string) (v : Client) (m : Clients) :
  token v = t -> s <> t -> find_by_token s (m ++ [(k, v)]) = find_by_token s m.
Proof.
  intros Hv Hne. induction m as [| [k0 c0] r IH]; simpl.
  - destruct (String.eqb_spec (token v) s); [congruence | reflexivity].
  - destruct (String.eqb (token c0) s); auto.
Qed.


Lemma attach_clients_unknown (t : string) (ch : nat) (m : Clients) :
  find_by_token t m = None -> attach_clients t ch m = (m, None).
Proof.
  induction m as [| [k c] r IH]; simpl; auto.
  destruct (String.eqb (token c) t); [discriminate |].
  intros H. rewrite IH; auto.
Qed.

Lemma detach_clients_unknown (t : string) (h : nat) (m : Clients) :
  find_by_token t m = None -> detach_clients t h m = (m, false).
Proof.
  induction m as [| [k c] r IH]; simpl; auto.
  destruct (String.eqb (token c) t); [discriminate |].
  intros H. rewrite IH; auto.
Qed.

(** ** Extras *)

(** ws_handler upgrades exactly the tokens that /status resolves. *)
Theorem ws_upgrade_iff_status_resolves :
  forall (t : string) (m : Clients),
    ws_handler t m = Upgrade <-> handle_status t m <> None.
Proof.
  intros t m. unfold ws_handler, handle_status.
  induction m as [| [k c] r IH]; simpl.
  - split; congruence.
  - destruct (String.eqb (token c) t); simpl.
    + split; congruence.
    + exact IH.
Qed.

(** The registration reply: 200 with a body holding only the token, or
    406 with a body holding only the error text. *)
Theorem registration_reply_shape :
  forall (lower : string -> string) (n t : string) (m : Clients),
    registration_reply (snd (handle_registration lower n t m)) =
      if contains_key (lower n) m
      then (406, JObject [("error", JString "The name is already taken")])
      else (200, JObject [("token", JString t)]).
Proof.
  intros lower n t m. unfold handle_registration.
  destruct (contains_key (lower n) m); reflexivity.
Qed.

(** A send is Delivered on channel [ch] exactly when the recipient key
    resolves to a client whose [tx] is [ch] and the token resolves to a
    sender; the frame then pushed is [{"from": sender name, "body": b}]. *)
Theorem delivered_iff :
  forall (lower : string -> string) (tok to b : string) (m : Clients) (ch : nat) (msg : Message),
    handle_send_message lower tok to b m = Delivered ch msg <->
    exists r s, get (lower to) m = Some r /\ find_by_token tok m = Some s /\
      tx r = Some ch /\ msg = mkMessage (name s) b /\
      message_json msg = JObject [("from", JString (name s)); ("body", JString b)].
Proof.
  intros lower tok to b m ch msg. unfold handle_send_message. split.
  - destruct (get (lower to) m) as [r |]; [| discriminate].
    destruct (find_by_token tok m) as [s |]; [| discriminate].
    destruct (tx r) as [ch' |] eqn:Ht; [| discriminate].
    intros H. inversion H. subst. exists r, s. repeat split; auto.
  - intros [r [s [Hr [Hs [Ht [Hm _]]]]]]. rewrite Hr, Hs, Ht, Hm. reflexivity.
Qed.

Lemma delivered_iff_witness :
  let m := clients (exec lowercase init
             [ERegister "Alice" "tA"; ERegister "Bob" "tB"; EAttach "tB" 5]) in
  exists r s, get (lowercase "BOB") m = Some r /\ find_by_token "tA" m = Some s /\
    tx r = Some 5 /\ mkMessage "Alice" "hi" = mkMessage (name s) "hi" /\
    message_json (mkMessage "Alice" "hi") =
      JObject [("from", JString (name s)); ("body", JString "hi")].
Proof.
  intros m. apply (delivered_iff lowercase "tA" "BOB" "hi" m 5 (mkMessage "Alice" "hi")).
  reflexivity.
Defined.



(** A websocket opened or closed with a token that no client has changes
    nothing: no channel is installed and no timer is spawned. *)
Theorem lifecycle_unknown_token_noop :
  forall (t : string) (ch : nat) (st : State),
    find_by_token t (clients st) = None ->
    attach t ch st = st /\ detach t st = st.
Proof.
  intros t ch [m ts clk nid] H. simpl in H. split.
  - unfold attach. simpl. rewrite attach_clients_unknown by exact H. reflexivity.
  - unfold detach. simpl. rewrite detach_clients_unknown by exact H. reflexivity.
Qed.

Lemma lifecycle_unknown_token_noop_witness :
  let st := exec lowercase init [ERegister "Bob" "tB"; EAttach "tB" 1] in
  find_by_token "tX" (clients st) = None /\
  attach "tX" 2 st = st /\ detach "tX" st = st.
Proof.
  intros st.
  assert (H : find_by_token "tX" (clients st) = None) by reflexivity.
  split; [exact H | exact (lifecycle_unknown_token_noop "tX" 2 st H)].
Defined.

Lemma attach_clients_get (t : string) (ch : nat) (m : Clients) (k : string) (c : Client) :
  get k m = Some c -> token c = t ->
  (forall k' c', In (k', c') m -> token c' = t -> k' = k) ->
  get k (fst (attach_clients t ch m)) =
    Some {| name := name c; token := token c; disconnect_timer := None; tx := Some ch |}.
Proof.
  intros Hg Ht Hu. induction m as [| [k' c'] r IH]; simpl in *; [discriminate |].
  destruct (String.eqb_spec (token c') t) as [E | E]; simpl.
  - assert (k' = k) by (apply (Hu k' c'); auto). subst k'.
    rewrite String.eqb_refl in *. inversion Hg. subst. reflexivity.
  - destruct (String.eqb_spec k' k) as [-> | Hk].
    + inversion Hg. subst. congruence.
    + destruct (attach_clients t ch r) as [r' tk] eqn:Ea. simpl in *.
      destruct (String.eqb_spec k' k); [congruence |].
      apply IH; [exact Hg |]. intros k0 c0 Hin. apply (Hu k0 c0). right. exact Hin.
Qed.

Lemma attach_clients_find_name (t s : string) (ch : nat) (m : Clients) :
  option_map name (find_by_token s (fst (attach_clients t ch m))) =
  option_map name (find_by_token s m).
Proof.
  induction m as [| [k c] r IH]; simpl; auto.
  destruct (String.eqb (token c) t); simpl.
  - destruct (String.eqb (token c) s); reflexivity.
  - destruct (attach_clients t ch r) as [r' tk]. simpl in *.
    destruct (String.eqb (token c) s); auto.
Qed.

(** Attach installs the channel and clears the stored timer of the client
    holding the token; when no other client shares that token, any
    resolving sender naming that client (in any casing) is then Delivered
    on the new channel, with the sender's name as [from]. *)
Theorem attach_then_delivered :
  forall (lower : string -> string) (st : State) (t s to b : string) (ch : nat) (c : Client),
    get (lower to) (clients st) = Some c -> token c = t ->
    (forall k' c', In (k', c') (clients st) -> token c' = t -> k' = lower to) ->
    find_by_token s (clients st) <> None ->
    get (lower to) (clients (attach t ch st)) =
      Some {| name := name c; token := t; disconnect_timer := None; tx := Some ch |} /\
    exists sname, option_map name (find_by_token s (clients st)) = Some sname /\
      handle_send_message lower s to b (clients (attach t ch st)) =
        Delivered ch (mkMessage sname b).
Proof.
  intros lower st t s to b ch c Hg Ht Hu Hs.
  assert (Hm : clients (attach t ch st) = fst (attach_clients t ch (clients st))).
  { unfold attach. destruct (attach_clients t ch (clients st)); reflexivity. }
  rewrite Hm.
  pose proof (attach_clients_get t ch _ _ _ Hg Ht Hu) as Hget.
  rewrite Ht in Hget. split; [exact Hget |].
  pose proof (attach_clients_find_name t s ch (clients st)) as Hn.
  destruct (find_by_token s (clients st)) as [sc |]; [| congruence].
  exists (name sc). split; [reflexivity |].
  unfold handle_send_message. rewrite Hget.
  destruct (find_by_token s (fst (attach_clients t ch (clients st)))) as [sc' |];
    simpl in Hn; inversion Hn. reflexivity.
Qed.

Lemma attach_then_delivered_witness :
  let st := exec lowercase init [ERegister "Alice" "tA"; ERegister "Bob" "tB"] in
  get "bob" (clients (attach "tB" 7 st)) =
    Some {| name := "Bob"; token := "tB"; disconnect_timer := None; tx := Some 7 |} /\
  exists sname, option_map name (find_by_token "tA" (clients st)) = Some sname /\
    handle_send_message lowercase "tA" "Bob" "hi" (clients (attach "tB" 7 st)) =
      Delivered 7 (mkMessage sname "hi").
Proof.
  intros st.
  apply (attach_then_delivered lowercase st "tB" "tA" "Bob" "hi" 7
           (new_client "Bob" "tB")); [reflexivity | reflexivity | | discriminate].
  intros k' c' Hin Htok. simpl in Hin.
  destruct Hin as [E | [E | []]]; inversion E; subst; [discriminate | reflexivity].
Defined.

Lemma detach_clients_found (t : string) (h : nat) (m : Clients) :
  find_by_token t m <> None ->
  snd (detach_clients t h m) = true /\
  option_map disconnect_timer (find_by_token t (fst (detach_clients t h m))) = Some (Some h).
Proof.
  induction m as [| [k c] r IH]; simpl; [congruence |].
  destruct (String.eqb (token c) t) eqn:E; simpl.
  - rewrite E. auto.
  - intros H. destruct (detach_clients t h r) as [r' f]. simpl in *.
    rewrite E. auto.
Qed.

(** Detach with a known token stores the handle [next_id] in the client
    found, spawns exactly one timer for that token ending 10 seconds from
    now, and leaves every entry's channel as it was. *)
Theorem detach_known_token :
  forall (t : string) (st : State),
    find_by_token t (clients st) <> None ->
    tasks (detach t st) = tasks st ++ [mkTimer (next_id st) t (now st + GRACE_SECS)] /\
    next_id (detach t st) = S (next_id st) /\
    option_map disconnect_timer (find_by_token t (clients (detach t st))) =
      Some (Some (next_id st)) /\
    (forall k, option_map tx (get k (clients (detach t st))) =
               option_map tx (get k (clients st))).
Proof.
  intros t st H.
  destruct (detach_clients_found t (next_id st) _ H) as [Hf Hd].
  pose proof (detach_clients_keeps_tx t (next_id st) (clients st)) as Htx.
  unfold detach.
  destruct (detach_clients t (next_id st) (clients st)) as [m f]. simpl in *. subst f.
  repeat split; auto.
Qed.

Lemma detach_known_token_witness :
  let st := exec lowercase init [ERegister "Bob" "tB"; EAttach "tB" 1; ETick] in
  find_by_token "tB" (clients st) <> None /\
  tasks (detach "tB" st) = [mkTimer 0 "tB" 11].
Proof.
  intros st.
  assert (H : find_by_token "tB" (clients st) <> None) by discriminate.
  split; [exact H | exact (proj1 (detach_known_token "tB" st H))].
Defined.

(** A firing timer removes every client with its token, keeps every other
    entry, and takes itself off the running tasks. *)
Theorem fire_removes_exactly_token :
  forall (tk : TimerTask) (st : State) (k : string) (c : Client),
    (In (k, c) (clients (fire tk st)) <->
       In (k, c) (clients st) /\ token c <> ttoken tk) /\
    handle_status (ttoken tk) (clients (fire tk st)) = None /\
    ~ In tk (tasks (fire tk st)).
Proof.
  intros tk st k c. simpl. unfold retain_not_token, abort. split; [| split].
  - rewrite filter_In. simpl. rewrite negb_true_iff, String.eqb_neq. tauto.
  - unfold handle_status.
    induction (clients st) as [| [k' c'] r IH]; simpl; auto.
    destruct (String.eqb_spec (token c') (ttoken tk)); simpl; auto.
    destruct (String.eqb_spec (token c') (ttoken tk)); [congruence |]. exact IH.
  - rewrite filter_In, Nat.eqb_refl. simpl. intros [_ H]. discriminate.
Qed.

Lemma fire_fold_clients (l : list TimerTask) (st : State) (kc : string * Client) :
  In kc (clients (fold_left (fun s tk => fire tk s) l st)) <->
  In kc (clients st) /\ (forall tk, In tk l -> token (snd kc) <> ttoken tk).
Proof.
  revert st. induction l as [| tk l IH]; intros st; simpl.
  - split; [intros H; split; [exact H | intros _ []] | tauto].
  - rewrite IH. simpl. unfold retain_not_token.
    rewrite filter_In, negb_true_iff, String.eqb_neq. split.
    + intros [[H1 H2] H3]. split; [exact H1 |]. intros tk' [<- | Hin]; auto.
    + intros [H1 H2]. split; [split; [exact H1 | apply H2; auto] |].
      intros tk' Hin. apply H2. auto.
Qed.

Lemma fire_fold_tasks (l : list TimerTask) (st : State) (x : TimerTask) :
  In x (tasks (fold_left (fun s tk => fire tk s) l st)) <->
  In x (tasks st) /\ (forall tk, In tk l -> tid x <> tid tk).
Proof.
  revert st. induction l as [| tk l IH]; intros st; simpl.
  - split; [intros H; split; [exact H | intros _ []] | tauto].
  - rewrite IH. simpl. unfold abort.
    rewrite filter_In, negb_true_iff, Nat.eqb_neq. split.
    + intros [[H1 H2] H3]. split; [exact H1 |]. intros tk' [<- | Hin]; auto.
    + intros [H1 H2]. split; [split; [exact H1 | apply H2; auto] |].
      intros tk' Hin. apply H2. auto.
Qed.

Lemma fire_fold_now (l : list TimerTask) (st : State) :
  now (fold_left (fun s tk => fire tk s) l st) = now st.
Proof. revert st. induction l as [| tk l IH]; intros st; simpl; [| rewrite IH]; reflexivity. Qed.

(** A tick removes exactly the clients whose token has a timer reaching
    its deadline at the new time; every other entry stays. *)
Theorem tick_removes_exactly_due :
  forall (st : State) (k : string) (c : Client),
    In (k, c) (clients (tick st)) <->
    In (k, c) (clients st) /\
    (forall tk, In tk (tasks st) -> deadline tk <= S (now st) -> token c <> ttoken tk).
Proof.
  intros st k c. unfold tick. rewrite fire_fold_clients. simpl.
  unfold due. simpl. split.
  - intros [H1 H2]. split; [exact H1 |]. intros tk Hin Hd. apply H2.
    apply filter_In. split; [exact Hin | apply Nat.leb_le; exact Hd].
  - intros [H1 H2]. split; [exact H1 |]. intros tk Hin.
    apply filter_In in Hin as [Hin Hd]. apply Nat.leb_le in Hd. auto.
Qed.

(** In every reachable state each running timer ends its sleep strictly
    after the current time and at most 10 seconds after it. *)
Theorem reachable_timers_bounded :
  forall (lower : string -> string) (es : list Event),
    timers_bounded (exec lower init es).
Proof.
  intros lower es. unfold exec.
  assert (Hstep : forall st e, timers_bounded st -> timers_bounded (step lower st e)).
  { intros st e H. destruct e as [n t | t ch | t |]; simpl.
    - exact H.
    - unfold attach. destruct (attach_clients t ch (clients st)) as [m [h |]];
        intros tk Hin; simpl in *; apply H; auto.
      unfold abort in Hin. apply filter_In in Hin. tauto.
    - unfold detach. destruct (detach_clients t (next_id st) (clients st)) as [m []];
        [| exact H].
      intros tk Hin. simpl in *. apply in_app_or in Hin as [Hin | [<- | []]].
      + apply H, Hin.
      + simpl. unfold GRACE_SECS. lia.
    - unfold tick. intros tk Hin. rewrite fire_fold_now. simpl.
      apply fire_fold_tasks in Hin as [Hin Hnot]. simpl in Hin.
      specialize (H tk Hin). unfold GRACE_SECS in *.
      destruct (Nat.leb (deadline tk) (S (now st))) eqn:Ed.
      + exfalso. apply (Hnot tk); [| reflexivity].
        unfold due. apply filter_In. split; [exact Hin | exact Ed].
      + apply Nat.leb_gt in Ed. lia. }
  assert (Hinit : timers_bounded init) by (intros tk []).
  revert Hinit. generalize init as st.
  induction es as [| e es IH]; intros st Hst; simpl; auto.
Qed.

Lemma nodup_filter_keys (f : string * Client -> bool) (m : Clients) :
  NoDup (map fst m) -> NoDup (map fst (filter f m)).
Proof.
  induction m as [| kc r IH]; simpl; intros H; auto.
  inversion H as [| ? ? Hn Hr]; subst.
  destruct (f kc); simpl; auto.
  constructor; auto. intros Hin. apply Hn.
  apply in_map_iff in Hin as [y [Hy Hin]]. apply filter_In in Hin as [Hin _].
  apply in_map_iff. eauto.
Qed.

Lemma attach_clients_keys (t : string) (ch : nat) (m : Clients) :
  map fst (fst (attach_clients t ch m)) = map fst m.
Proof.
  induction m as [| [k c] r IH]; simpl; auto.
  destruct (String.eqb (token c) t); simpl; auto.
  destruct (attach_clients t ch r); simpl in *. rewrite IH. reflexivity.
Qed.

Lemma detach_clients_keys (t : string) (h : nat) (m : Clients) :
  map fst (fst (detach_clients t h m)) = map fst m.
Proof.
  induction m as [| [k c] r IH]; simpl; auto.
  destruct (String.eqb (token c) t); simpl; auto.
  destruct (detach_clients t h r); simpl in *. rewrite IH. reflexivity.
Qed.

Lemma step_nodup_keys (lower : string -> string) (st : State) (e : Event) :
  NoDup (map fst (clients st)) -> NoDup (map fst (clients (step lower st e))).
Proof.
  intros H. destruct e as [n t | t ch | t |]; simpl.
  - unfold handle_registration.
    destruct (contains_key (lower n) (clients st)) eqn:E; simpl; [exact H |].
    rewrite insert_absent by exact E. rewrite map_app. simpl.
    apply NoDup_app; auto.
    + repeat constructor. intros [].
    + intros x Hx [<- | []]. apply in_map_iff in Hx as [[k c] [Hk Hin]].
      simpl in Hk. subst k.
      assert (contains_key (lower n) (clients st) = true)
        by (apply contains_key_In; eauto). congruence.
  - unfold attach. pose proof (attach_clients_keys t ch (clients st)) as Hk.
    destruct (attach_clients t ch (clients st)). simpl in *. rewrite Hk. exact H.
  - unfold detach. pose proof (detach_clients_keys t (next_id st) (clients st)) as Hk.
    destruct (detach_clients t (next_id st) (clients st)) as [m []]; simpl in *; auto.
    rewrite Hk. exact H.
  - unfold tick. remember (due _) as l. clear Heql.
    remember {| clients := clients st; tasks := tasks st; now := S (now st);
                next_id := next_id st |} as st1.
    assert (H1 : NoDup (map fst (clients st1))) by (subst st1; exact H).
    clear Heqst1 H. revert st1 H1.
    induction l as [| tk l IH]; intros st1 H1; simpl; auto.
    apply IH. simpl. apply nodup_filter_keys, H1.
Qed.

Lemma nodup_keys_same (m : Clients) (k : string) (a b : Client) :
  NoDup (map fst m) -> In (k, a) m -> In (k, b) m -> a = b.
Proof.
  induction m as [| [k' c] r IH]; simpl; [tauto |].
  intros Hn Ha Hb. inversion Hn as [| ? ? Hnot Hr]; subst.
  destruct Ha as [Ea | Ha], Hb as [Eb | Hb].
  - inversion Ea. inversion Eb. congruence.
  - inversion Ea; subst. exfalso. apply Hnot. apply in_map_iff. exists (k, b). auto.
  - inversion Eb; subst. exfalso. apply Hnot. apply in_map_iff. exists (k, a). auto.
  - apply IH; auto.
Qed.

(** In every reachable registry no two entries share a key, and two
    entries whose display names lowercase alike are the same entry. *)
Theorem reachable_names_unique :
  forall (lower : string -> string) (es : list Event),
    let m := clients (exec lower init es) in
    NoDup (map fst m) /\
    (forall k1 k2 c1 c2, In (k1, c1) m -> In (k2, c2) m ->
       lower (name c1) = lower (name c2) -> k1 = k2 /\ c1 = c2).
Proof.
  intros lower es m.
  assert (Hnd : NoDup (map fst m)).
  { unfold m, exec. assert (H0 : NoDup (map fst (clients init))) by constructor.
    revert H0. generalize init as st.
    induction es as [| e es IH]; intros st Hst; simpl; auto.
    apply IH, step_nodup_keys, Hst. }
  split; [exact Hnd |].
  intros k1 k2 c1 c2 H1 H2 Hn.
  pose proof (reachable_normalized lower es) as Hk. fold m in Hk.
  unfold keys_normalized in Hk. rewrite Forall_forall in Hk.
  pose proof (Hk _ H1) as E1. pose proof (Hk _ H2) as E2. simpl in E1, E2.
  assert (Hk12 : k1 = k2) by congruence. rewrite <- Hk12 in H2.
  split; [exact Hk12 |].
  apply (nodup_keys_same m k1); auto.
Qed.

Lemma reachable_names_unique_witness :
  let m := clients (exec lowercase init [ERegister "Alice" "tA"; ERegister "alice" "tB"]) in
  "alice" = "alice" /\ new_client "Alice" "tA" = new_client "Alice" "tA".
Proof.
  intros m.
  apply (proj2 (reachable_names_unique lowercase [ERegister "Alice" "tA"; ERegister "alice" "tB"])
           "alice" "alice" (new_client "Alice" "tA") (new_client "Alice" "tA"));
    [left; reflexivity | left; reflexivity | reflexivity].
Defined.

(** A successful registration stores the new client under [lower n] and
    changes how no other key and no other token resolves. *)
Theorem registration_leaves_others :
  forall (lower : string -> string) (n t : string) (m : Clients),
    snd (handle_registration lower n t m) = Token t ->
    let m' := fst (handle_registration lower n t m) in
    get (lower n) m' = Some (new_client n t) /\
    (forall k, k <> lower n -> get k m' = get k m) /\
    (forall s, s <> t -> find_by_token s m' = find_by_token s m).
Proof.
  intros lower n t m H m'. unfold m', handle_registration in *.
  destruct (contains_key (lower n) m) eqn:E; [discriminate |]. simpl.
  rewrite insert_absent by exact E.
  split; [apply get_app_absent, E |].
  split; [intros k Hk; apply get_app_other, Hk |].
  intros s Hs. apply (find_by_token_app_other s t); auto.
Qed.

Lemma registration_leaves_others_witness :
  let m := clients (exec lowercase init [ERegister "Alice" "tA"]) in
  snd (handle_registration lowercase "Bob" "tB" m) = Token "tB" /\
  get "alice" (fst (handle_registration lowercase "Bob" "tB" m)) = get "alice" m.
Proof.
  intros m.
  assert (H : snd (handle_registration lowercase "Bob" "tB" m) = Token "tB") by reflexivity.
  split; [exact H |].
  apply (proj1 (proj2 (registration_leaves_others lowercase "Bob" "tB" m H))).
  discriminate.
Defined.
